(** * ObjectHub: a registry of live objects addressed by dotted paths

    Shallow embedding of [mmengine/registry/object_hub.py] and the
    properties of its four methods ([register], [resolve], [unregister],
    [clear]).

    Modelling choices, all taken from the source:
    - a Python [dict] keeps insertion order, and [resolve] prints
      [list(self._objects.keys())] in its error message, so a dict is an
      insertion-ordered association list here; [to_map] is its unordered
      view as a finite map;
    - a method is a state transformer [ObjectHub -> ObjectHub * result A]:
      the hub after the call together with the returned value or the raised
      exception;
    - an exception is its class together with the template of its f-string
      and the values interpolated in it;
    - a Python [str] is the [string] of its UTF-8 bytes: ['.'] and ['_'] are
      single bytes that occur in no longer character, so [split] and
      [startswith] on bytes are those on characters;
    - what the interpreter supplies ([str.isdigit], [int], the attributes of
      the built-in types) is a parameter, [runtime]: the properties hold
      whatever these functions answer;
    - registered objects are first immutable values of the built-in shapes
      (plain [dict], [list], [tuple], scalars, instances with plain
      attributes); module [Store] then gives objects an identity and a
      state, with [defaultdict], to follow what [resolve] does to the
      objects it traverses. *)

From stdpp Require Import gmap strings list.
From Stdlib Require Import ZArith Ascii String.

Local Open Scope Z_scope.
Local Open Scope string_scope.
Local Open Scope list_scope.

(** ** Python values *)

(** Hashable values used as dictionary keys: [str] and [int]. A [str] never
    compares equal to an [int]. *)
Inductive key : Type :=
| KStr (s : string)
| KInt (z : Z).

#[global] Instance key_eq_dec : EqDecision key.
Proof. solve_decision. Defined.

Definition key_to_sum (k : key) : string + Z :=
  match k with KStr s => inl s | KInt z => inr z end.

Definition key_of_sum (x : string + Z) : key :=
  match x with inl s => KStr s | inr z => KInt z end.

#[global] Instance key_countable : Countable key.
Proof.
  refine (inj_countable' key_to_sum key_of_sum _).
  intros []; reflexivity.
Defined.

Definition key_eqb (a b : key) : bool :=
  match a, b with
  | KStr s, KStr t => String.eqb s t
  | KInt x, KInt y => Z.eqb x y
  | _, _ => false
  end.

(** The shapes of runtime values [resolve] tells apart: [dict], [list] and
    [tuple], and everything else, which only has attributes. [VObject] is an
    instance of a user class: its class name and what [getattr] finds on
    it. *)
#[warnings="-register-all"]
Inductive value : Type :=
| VNone
| VBool (b : bool)
| VInt (z : Z)
| VStr (s : string)
| VList (xs : list value)
| VTuple (xs : list value)
| VDict (d : list (key * value))
| VObject (cls : string) (attrs : list (string * value)).

(** An insertion-ordered dictionary with keys [key]. *)
Definition pydict (V : Type) : Type := list (key * V).

Module Dict.
Section Ops.
Context {V : Type}.

(** [d.get(k)]: the first binding of [k]. *)
Fixpoint get (k : key) (d : pydict V) : option V :=
  match d with
  | [] => None
  | (k', v) :: d' => if key_eqb k k' then Some v else get k d'
  end.

(** [k in d] *)
Definition contains (k : key) (d : pydict V) : bool :=
  match get k d with Some _ => true | None => false end.

(** [d[k] = v]: an existing key keeps its position, a new key goes last. *)
Fixpoint set (k : key) (v : V) (d : pydict V) : pydict V :=
  match d with
  | [] => [(k, v)]
  | (k', v') :: d' =>
      if key_eqb k k' then (k', v) :: d' else (k', v') :: set k v d'
  end.

(** [del d[k]]; the source deletes only under [k in d], and a key that is
    absent leaves the dictionary as it is here. *)
Fixpoint del (k : key) (d : pydict V) : pydict V :=
  match d with
  | [] => []
  | (k', v') :: d' => if key_eqb k k' then d' else (k', v') :: del k d'
  end.

(** [list(d.keys())] *)
Definition keys (d : pydict V) : list key := map fst d.

(** The dictionary as an unordered finite map. *)
Definition to_map (d : pydict V) : gmap key V := list_to_map d.
End Ops.
End Dict.

(** ** Exceptions *)

Inductive exc_class : Type :=
| ValueError
| KeyError
| PermissionError
| AttributeError
| IndexError
| TypeError.

(** The messages of the source, as template and interpolated values;
    [Msg_runtime] stands for a message written by the interpreter. *)
Inductive message : Type :=
| Msg_invalid_alias (alias : value)
| Msg_alias_collision (alias : string)
| Msg_not_found (ref_name instance_name : string) (available : list key)
| Msg_private (attr : string)
| Msg_stopped (key_path attr type_name : string)
| Msg_runtime.

Inductive exn : Type :=
| Exn (cls : exc_class) (msg : message).

Inductive result (A : Type) : Type :=
| Ok (a : A)
| Raise (e : exn).
Arguments Ok {A} a.
Arguments Raise {A} e.

(** The error kinds of the specification, told apart by the exception class
    and the message the source raises. *)
Inductive error_kind : Type :=
| InvalidAlias
| AliasCollision
| UnresolvedAlias
| AccessDenied
| ResolutionFailed
| Uncaught.

Definition kind_of (e : exn) : error_kind :=
  match e with
  | Exn ValueError (Msg_invalid_alias _) => InvalidAlias
  | Exn ValueError (Msg_alias_collision _) => AliasCollision
  | Exn KeyError (Msg_not_found _ _ _) => UnresolvedAlias
  | Exn PermissionError (Msg_private _) => AccessDenied
  | Exn ValueError (Msg_stopped _ _ _) => ResolutionFailed
  | _ => Uncaught
  end.

(** ** Built-in operations used by the source *)

Definition isinstance_str (v : value) : bool :=
  match v with VStr _ => true | _ => false end.

Definition isinstance_dict (v : value) : bool :=
  match v with VDict _ => true | _ => false end.

(** [isinstance(v, (list, tuple))] *)
Definition isinstance_list_tuple (v : value) : bool :=
  match v with VList _ | VTuple _ => true | _ => false end.

(** Truth value of an object, as [not v] tests it. *)
Definition truthy (v : value) : bool :=
  match v with
  | VNone => false
  | VBool b => b
  | VInt z => negb (Z.eqb z 0)
  | VStr s => negb (String.eqb s "")
  | VList xs | VTuple xs => match xs with [] => false | _ => true end
  | VDict d => match d with [] => false | _ => true end
  | VObject _ _ => true
  end.

(** [type(v).__name__] *)
Definition type_name (v : value) : string :=
  match v with
  | VNone => "NoneType"
  | VBool _ => "bool"
  | VInt _ => "int"
  | VStr _ => "str"
  | VList _ => "list"
  | VTuple _ => "tuple"
  | VDict _ => "dict"
  | VObject cls _ => cls
  end.

(** [s.split(sep)] for a one-character separator: never an empty list. *)
Fixpoint split (sep : ascii) (s : string) : list string :=
  match s with
  | EmptyString => [EmptyString]
  | String c s' =>
      if Ascii.eqb c sep then EmptyString :: split sep s'
      else match split sep s' with
           | [] => [String c EmptyString]
           | p :: ps => String c p :: ps
           end
  end.

(** [s.startswith(p)] *)
Definition startswith (s p : string) : bool := String.prefix p s.

Definition is_ascii_digit (c : ascii) : bool :=
  (48 <=? nat_of_ascii c)%nat && (nat_of_ascii c <=? 57)%nat.

(** [xs[i]] on a list or tuple, with Python's negative indices. *)
Definition seq_getitem {A : Type} (xs : list A) (i : Z) : result A :=
  let n := Z.of_nat (List.length xs) in
  let j := if (i <? 0)%Z then (i + n)%Z else i in
  if (0 <=? j)%Z && (j <? n)%Z
  then match nth_error xs (Z.to_nat j) with
       | Some v => Ok v
       | None => Raise (Exn IndexError Msg_runtime)
       end
  else Raise (Exn IndexError Msg_runtime).

(** [cur[k]] on the values of the model; a [VDict] is a plain [dict], whose
    lookup of a missing key raises [KeyError]. *)
Definition getitem (cur : value) (k : key) : result value :=
  match cur with
  | VDict d =>
      match Dict.get k d with
      | Some v => Ok v
      | None => Raise (Exn KeyError Msg_runtime)
      end
  | VList xs | VTuple xs =>
      match k with
      | KInt i => seq_getitem xs i
      | KStr _ => Raise (Exn TypeError Msg_runtime)
      end
  | _ => Raise (Exn TypeError Msg_runtime)
  end.

Fixpoint assoc {A : Type} (name : string) (attrs : list (string * A))
    : option A :=
  match attrs with
  | [] => None
  | (n, v) :: rest => if String.eqb name n then Some v else assoc name rest
  end.

(** ** The hub *)

(** [self.instance_name] comes from [ManagerMixin]; [self._objects] is the
    dictionary of registered objects. *)
Record ObjectHub : Type := mkObjectHub {
  instance_name : string;
  _objects : pydict value
}.

Definition set_objects (self : ObjectHub) (d : pydict value) : ObjectHub :=
  {| instance_name := instance_name self; _objects := d |}.

(** [ObjectHub(name)] *)
Definition __init__ (name : string) : ObjectHub :=
  {| instance_name := name; _objects := [] |}.

(** What the Python runtime supplies and this repository only calls:
    - [builtin_getattr]: the public attributes of the built-in types
      ([list.append], [int.real], ...); [None] is [AttributeError];
    - [str_isdigit]: [str.isdigit], which holds of a non-empty string of
      Unicode digit characters;
    - [str_int]: [int] on a string; [None] is the [ValueError] it raises
      (on a digit that is not decimal, or past the digit limit). *)
Record runtime : Type := mkRuntime {
  builtin_getattr : value -> string -> option value;
  str_isdigit : string -> bool;
  str_int : string -> option Z
}.

Section Methods.

Variable rt : runtime.

(** [getattr(cur, name)] *)
Definition getattr (cur : value) (name : string) : result value :=
  let found :=
    match cur with
    | VObject _ attrs => assoc name attrs
    | _ => builtin_getattr rt cur name
    end in
  match found with
  | Some v => Ok v
  | None => Raise (Exn AttributeError Msg_runtime)
  end.

(** The body of the [try] block of [resolve]. *)
Definition lookup (current_obj : value) (attr : string) : result value :=
  if isinstance_dict current_obj then
    getitem current_obj (KStr attr)
  else if isinstance_list_tuple current_obj && str_isdigit rt attr then
    match str_int rt attr with
    | Some i => getitem current_obj (KInt i)
    | None => Raise (Exn ValueError Msg_runtime)
    end
  else
    getattr current_obj attr.

(** [except (KeyError, AttributeError, IndexError)] *)
Definition caught (c : exc_class) : bool :=
  match c with
  | KeyError | AttributeError | IndexError => true
  | _ => false
  end.

(** The [for attr in parts[1:]] loop of [resolve]. *)
Fixpoint walk (key_path : string) (current_obj : value)
    (attrs : list string) : result value :=
  match attrs with
  | [] => Ok current_obj
  | attr :: rest =>
      if startswith attr "_" then
        Raise (Exn PermissionError (Msg_private attr))
      else
        match lookup current_obj attr with
        | Ok v => walk key_path v rest
        | Raise (Exn c m) =>
            if caught c then
              Raise (Exn ValueError
                       (Msg_stopped key_path attr (type_name current_obj)))
            else Raise (Exn c m)
        end
  end.

Definition register (alias obj : value) (force : bool)
    (self : ObjectHub) : ObjectHub * result unit :=
  if negb (isinstance_str alias) || negb (truthy alias) then
    (self, Raise (Exn ValueError (Msg_invalid_alias alias)))
  else
    match alias with
    | VStr a =>
        if Dict.contains (KStr a) (_objects self) && negb force then
          (self, Raise (Exn ValueError (Msg_alias_collision a)))
        else
          (set_objects self (Dict.set (KStr a) obj (_objects self)), Ok tt)
    | _ => (self, Raise (Exn ValueError (Msg_invalid_alias alias)))
    end.

Definition resolve (key_path : string)
    (self : ObjectHub) : ObjectHub * result value :=
  let parts := split "." key_path in
  let ref_name := hd "" parts in
  if negb (Dict.contains (KStr ref_name) (_objects self)) then
    let available := Dict.keys (_objects self) in
    (self, Raise (Exn KeyError
                    (Msg_not_found ref_name (instance_name self) available)))
  else
    match Dict.get (KStr ref_name) (_objects self) with
    | Some current_obj => (self, walk key_path current_obj (tl parts))
    | None => (self, Raise (Exn KeyError Msg_runtime))
    end.

Definition unregister (alias : string)
    (self : ObjectHub) : ObjectHub * result unit :=
  if Dict.contains (KStr alias) (_objects self) then
    (set_objects self (Dict.del (KStr alias) (_objects self)), Ok tt)
  else (self, Ok tt).

Definition clear (self : ObjectHub) : ObjectHub * result unit :=
  (set_objects self [], Ok tt).

(** *** Sequences of calls *)

Inductive call : Type :=
| Register (alias obj : value) (force : bool)
| Resolve (key_path : string)
| Unregister (alias : string)
| Clear.

(** The hub after one call, whether it returned or raised. *)
Definition after (c : call) (self : ObjectHub) : ObjectHub :=
  match c with
  | Register alias obj force => fst (register alias obj force self)
  | Resolve key_path => fst (resolve key_path self)
  | Unregister alias => fst (unregister alias self)
  | Clear => fst (clear self)
  end.

Definition run (cs : list call) (self : ObjectHub) : ObjectHub :=
  fold_left (fun h c => after c h) cs self.

End Methods.

(** ** Objects with identity and state

    The same [resolve] over a store: a registered object is a reference
    into a heap of objects, so that an object keeps its identity and a
    lookup can change it. Of the built-in types one lookup does:
    [collections.defaultdict] is a [dict] (it passes
    [isinstance(current_obj, dict)]) and [current_obj[attr]] on a missing
    key inserts the key with the default and returns it. A [defaultdict] is
    modelled with the value its factory returns, for the factories that
    return the same value at each call ([defaultdict(int)] has default
    [0]). Reading an attribute changes no object: properties and
    [__getattr__] are not modelled. *)
Module Store.

Inductive sval : Type :=
| SNone
| SBool (b : bool)
| SInt (z : Z)
| SStr (s : string)
| SRef (l : nat).

Inductive sobj : Type :=
| ODict (d : pydict sval)
| ODefaultDict (default : sval) (d : pydict sval)
| OList (xs : list sval)
| OTuple (xs : list sval)
| OInstance (cls : string) (attrs : list (string * sval)).

Record hub : Type := mkHub {
  instance_name : string;
  _objects : pydict sval
}.

Section Methods.

Variable rt : runtime.

(** Attributes of the built-in types on objects of the store; reading one
    changes no object. [None] is [AttributeError]. *)
Variable builtin_attr : gmap nat sobj -> sval -> string -> option sval.

Definition deref (h : gmap nat sobj) (v : sval) : option sobj :=
  match v with
  | SRef l => h !! l
  | _ => None
  end.

Definition isinstance_dict (h : gmap nat sobj) (v : sval) : bool :=
  match deref h v with
  | Some (ODict _) | Some (ODefaultDict _ _) => true
  | _ => false
  end.

Definition isinstance_list_tuple (h : gmap nat sobj) (v : sval) : bool :=
  match deref h v with
  | Some (OList _) | Some (OTuple _) => true
  | _ => false
  end.

Definition type_name (h : gmap nat sobj) (v : sval) : string :=
  match v with
  | SNone => "NoneType"
  | SBool _ => "bool"
  | SInt _ => "int"
  | SStr _ => "str"
  | SRef l =>
      match h !! l with
      | Some (ODict _) => "dict"
      | Some (ODefaultDict _ _) => "defaultdict"
      | Some (OList _) => "list"
      | Some (OTuple _) => "tuple"
      | Some (OInstance cls _) => cls
      | None => "object"
      end
  end.

(** [cur[k]]: the result and the heap after it. *)
Definition getitem (h : gmap nat sobj) (cur : sval) (k : key)
    : result sval * gmap nat sobj :=
  match cur with
  | SRef l =>
      match h !! l with
      | Some (ODict d) =>
          match Dict.get k d with
          | Some v => (Ok v, h)
          | None => (Raise (Exn KeyError Msg_runtime), h)
          end
      | Some (ODefaultDict dv d) =>
          match Dict.get k d with
          | Some v => (Ok v, h)
          | None => (Ok dv, <[l := ODefaultDict dv (Dict.set k dv d)]> h)
          end
      | Some (OList xs) | Some (OTuple xs) =>
          match k with
          | KInt i => (seq_getitem xs i, h)
          | KStr _ => (Raise (Exn TypeError Msg_runtime), h)
          end
      | _ => (Raise (Exn TypeError Msg_runtime), h)
      end
  | _ => (Raise (Exn TypeError Msg_runtime), h)
  end.

(** [getattr(cur, name)] *)
Definition getattr (h : gmap nat sobj) (cur : sval) (name : string)
    : result sval :=
  let found :=
    match deref h cur with
    | Some (OInstance _ attrs) => assoc name attrs
    | _ => builtin_attr h cur name
    end in
  match found with
  | Some v => Ok v
  | None => Raise (Exn AttributeError Msg_runtime)
  end.

(** The body of the [try] block of [resolve]. *)
Definition lookup (h : gmap nat sobj) (current_obj : sval) (attr : string)
    : result sval * gmap nat sobj :=
  if isinstance_dict h current_obj then
    getitem h current_obj (KStr attr)
  else if isinstance_list_tuple h current_obj && str_isdigit rt attr then
    match str_int rt attr with
    | Some i => getitem h current_obj (KInt i)
    | None => (Raise (Exn ValueError Msg_runtime), h)
    end
  else
    (getattr h current_obj attr, h).

(** The [for attr in parts[1:]] loop of [resolve]. *)
Fixpoint walk (key_path : string) (current_obj : sval)
    (attrs : list string) (h : gmap nat sobj)
    : result sval * gmap nat sobj :=
  match attrs with
  | [] => (Ok current_obj, h)
  | attr :: rest =>
      if startswith attr "_" then
        (Raise (Exn PermissionError (Msg_private attr)), h)
      else
        match lookup h current_obj attr with
        | (Ok v, h') => walk key_path v rest h'
        | (Raise (Exn c m), h') =>
            if caught c then
              (Raise (Exn ValueError
                        (Msg_stopped key_path attr (type_name h' current_obj))),
               h')
            else (Raise (Exn c m), h')
        end
  end.

(** [resolve]: the hub and the heap after the call, and its outcome. *)
Definition resolve (key_path : string) (self : hub) (h : gmap nat sobj)
    : (hub * gmap nat sobj) * result sval :=
  let parts := split "." key_path in
  let ref_name := hd "" parts in
  if negb (Dict.contains (KStr ref_name) (_objects self)) then
    let available := Dict.keys (_objects self) in
    ((self, h),
     Raise (Exn KeyError
              (Msg_not_found ref_name (instance_name self) available)))
  else
    match Dict.get (KStr ref_name) (_objects self) with
    | Some current_obj =>
        let '(r, h') := walk key_path current_obj (tl parts) h in
        ((self, h'), r)
    | None => ((self, h), Raise (Exn KeyError Msg_runtime))
    end.

End Methods.

(** What [resolve] may do to a heap: an object that is not a [defaultdict]
    stays as it is, and a [defaultdict] keeps its default and every entry
    it had. *)
Definition only_defaults_added (h h' : gmap nat sobj) : Prop :=
  forall l,
    match h !! l with
    | Some (ODefaultDict dv d) =>
        exists d', h' !! l = Some (ODefaultDict dv d')
                   /\ forall k x, Dict.get k d = Some x ->
                                  Dict.get k d' = Some x
    | o => h' !! l = o
    end.

(** A table of built-in attributes that finds nothing, for examples that
    consult none. *)
Definition no_builtin_attr (h : gmap nat sobj) (v : sval) (name : string)
    : option sval := None.

(** A hub holding one [defaultdict(int)], empty, under the alias ["dd"]. *)
Definition counter_hub : hub :=
  {| instance_name := "exp"; _objects := [(KStr "dd", SRef 0)] |}.

Definition counter_heap : gmap nat sobj :=
  {[ 0%nat := ODefaultDict (SInt 0) [] ]}.

(** A hub holding a plain [dict] with a [list] in it. *)
Definition plain_hub : hub :=
  {| instance_name := "exp"; _objects := [(KStr "cfg", SRef 0)] |}.

Definition plain_heap : gmap nat sobj :=
  {[ 0%nat := ODict [(KStr "steps", SRef 1)];
     1%nat := OList [SInt 10; SInt 20] ]}.

End Store.

(** ** Definitions used to state the properties *)

(** ['.' in s], and more generally [c in s] for a character [c]. *)
Fixpoint has_char (c : ascii) (s : string) : bool :=
  match s with
  | EmptyString => false
  | String c' s' => Ascii.eqb c' c || has_char c s'
  end.

(** A key of [_objects] that is a non-empty [str]. *)
Definition nonempty_str_key (k : key) : bool :=
  match k with
  | KStr s => negb (String.eqb s "")
  | KInt _ => false
  end.

(** The three ways the lookup of one step can miss: no such key in a
    mapping, an index outside a sequence, no such attribute. On a sequence
    with a step [str.isdigit] accepts, the index is what [int] returns. *)
Definition lookup_misses (rt : runtime) (cur : value) (step : string) : Prop :=
  match cur with
  | VDict d => Dict.get (KStr step) d = None
  | VList xs | VTuple xs =>
      if str_isdigit rt step
      then exists i, str_int rt step = Some i
                     /\ (i < - Z.of_nat (List.length xs)
                         \/ Z.of_nat (List.length xs) <= i)%Z
      else builtin_getattr rt cur step = None
  | VObject _ attrs => assoc step attrs = None
  | _ => builtin_getattr rt cur step = None
  end.

(** A step on a sequence that [str.isdigit] accepts and [int] rejects. *)
Definition int_rejects (rt : runtime) (cur : value) (step : string) : Prop :=
  isinstance_list_tuple cur = true
  /\ str_isdigit rt step = true
  /\ str_int rt step = None.

(** A hub reached from a fresh one by calls of its methods. *)
Definition reachable (rt : runtime) (self : ObjectHub) : Prop :=
  exists name cs, self = run rt cs (__init__ name).

(** *** Sample data

    A runtime for the examples and a hub holding a nested mapping, a
    sequence and an object. The runtime follows CPython on the strings the
    examples use: for attributes, the data attributes of [int]; for digits,
    the ASCII digits and the Arabic-Indic digits U+0660 to U+0669, which
    [str.isdigit] and [int] both accept, and the superscripts U+00B2,
    U+00B3 and U+00B9, which [str.isdigit] accepts and [int] rejects; [int]
    also rejects more than 4300 digits, its default limit. Any other
    character is taken not to be a digit, and [sample_int] is [int] on the
    strings [str.isdigit] accepts, the only ones the source passes to it. *)
Definition int_data_attrs (v : value) (name : string) : option value :=
  match v with
  | VInt z =>
      if String.eqb name "real" then Some (VInt z)
      else if String.eqb name "imag" then Some (VInt 0)
      else if String.eqb name "numerator" then Some (VInt z)
      else if String.eqb name "denominator" then Some (VInt 1)
      else None
  | _ => None
  end.

(** The digit a two-byte UTF-8 character is, if any: its decimal value, or
    [None] for a digit that is not decimal. *)
Definition two_byte_digit (c1 c2 : ascii) : option (option Z) :=
  let b1 := nat_of_ascii c1 in
  let b2 := nat_of_ascii c2 in
  if (b1 =? 217)%nat && (160 <=? b2)%nat && (b2 <=? 169)%nat
  then Some (Some (Z.of_nat b2 - 160)%Z)
  else if (b1 =? 194)%nat
          && ((b2 =? 178)%nat || (b2 =? 179)%nat || (b2 =? 185)%nat)
  then Some None
  else None.

(** The digits of a string, when it is made of digits only. *)
Fixpoint digits_of (s : string) : option (list (option Z)) :=
  match s with
  | EmptyString => Some []
  | String c rest =>
      if is_ascii_digit c
      then option_map (cons (Some (Z.of_nat (nat_of_ascii c) - 48)%Z))
             (digits_of rest)
      else match rest with
           | EmptyString => None
           | String c2 rest2 =>
               match two_byte_digit c c2 with
               | Some d => option_map (cons d) (digits_of rest2)
               | None => None
               end
           end
  end.

Fixpoint decimal_of (acc : Z) (ds : list (option Z)) : option Z :=
  match ds with
  | [] => Some acc
  | Some d :: ds' => decimal_of (10 * acc + d)%Z ds'
  | None :: _ => None
  end.

Definition sample_isdigit (s : string) : bool :=
  match digits_of s with
  | Some (_ :: _) => true
  | _ => false
  end.

Definition sample_int (s : string) : option Z :=
  match digits_of s with
  | Some (d :: ds) =>
      if (4300 <? List.length (d :: ds))%nat then None
      else decimal_of 0 (d :: ds)
  | _ => None
  end.

Definition sample_runtime : runtime :=
  {| builtin_getattr := int_data_attrs;
     str_isdigit := sample_isdigit;
     str_int := sample_int |}.

Definition sample_calls : list call :=
  [ Register (VStr "cfg")
      (VDict [(KStr "a", VDict [(KStr "b", VInt 7)]); (KInt 0, VInt 5)]) false;
    Register (VStr "seq") (VList [VInt 10; VInt 20; VInt 30]) false;
    Register (VStr "obj")
      (VObject "Backbone" [("_secret", VInt 1); ("out_channels", VInt 64)])
      false ].

Definition sample_hub : ObjectHub :=
  run sample_runtime sample_calls (__init__ "exp").

(** *** The entries as a finite map

    What one call does to the entries when they are read as a finite map
    from aliases to values, without their order. *)
Definition map_after (c : call) (m : gmap key value) : gmap key value :=
  match c with
  | Register (VStr a) obj force =>
      if String.eqb a "" then m
      else if bool_decide (is_Some (m !! KStr a)) && negb force then m
      else <[KStr a := obj]> m
  | Register _ _ _ => m
  | Resolve _ => m
  | Unregister a => delete (KStr a) m
  | Clear => ∅
  end.

(** [register(a, v)] for each pair of a list, in order. *)
Definition register_calls (avs : list (string * value)) : list call :=
  map (fun av => Register (VStr (fst av)) (snd av) false) avs.

(** ** Dictionaries *)

Lemma key_eqb_eq (a b : key) : key_eqb a b = true <-> a = b.
Proof.
  destruct a as [s|x], b as [t|y]; simpl.
  - rewrite String.eqb_eq. split; congruence.
  - split; discriminate.
  - split; discriminate.
  - rewrite Z.eqb_eq. split; congruence.
Qed.

Lemma key_eqb_refl (a : key) : key_eqb a a = true.
Proof. now apply key_eqb_eq. Qed.

Lemma key_eqb_neq (a b : key) : key_eqb a b = false <-> a <> b.
Proof.
  rewrite <- key_eqb_eq. destruct (key_eqb a b); split; congruence.
Qed.

Module DictFacts.
Section Facts.
Context {V : Type}.
Implicit Types (k : key) (v : V) (d : pydict V).

Lemma get_set_eq k v d : Dict.get k (Dict.set k v d) = Some v.
Proof.
  induction d as [|[k' v'] d IH]; simpl.
  - now rewrite key_eqb_refl.
  - destruct (key_eqb k k') eqn:E; simpl; rewrite E; auto.
Qed.

Lemma get_set_ne k k' v d :
  k <> k' -> Dict.get k' (Dict.set k v d) = Dict.get k' d.
Proof.
  intros Hne. induction d as [|[k1 v1] d IH]; simpl.
  - assert (key_eqb k' k = false) as -> by (apply key_eqb_neq; congruence).
    reflexivity.
  - destruct (key_eqb k k1) eqn:E; simpl.
    + apply key_eqb_eq in E. subst k1.
      assert (key_eqb k' k = false) as -> by (apply key_eqb_neq; congruence).
      reflexivity.
    + now rewrite IH.
Qed.

Lemma contains_true k d :
  Dict.contains k d = true <-> exists v, Dict.get k d = Some v.
Proof.
  unfold Dict.contains. destruct (Dict.get k d) as [v|].
  - split; eauto.
  - split; [discriminate | intros [v Hv]; discriminate].
Qed.

Lemma contains_false k d :
  Dict.contains k d = false <-> Dict.get k d = None.
Proof. unfold Dict.contains. destruct (Dict.get k d); split; congruence. Qed.

(** [k in d] is membership in [d.keys()]. *)
Lemma contains_keys k d : Dict.contains k d = true <-> k ∈ Dict.keys d.
Proof.
  unfold Dict.contains, Dict.keys.
  induction d as [|[k' v'] d IH]; simpl.
  - split; [discriminate | intros H; inversion H].
  - destruct (key_eqb k k') eqn:E.
    + apply key_eqb_eq in E. subst. split; auto. intros _. constructor.
    + apply key_eqb_neq in E. rewrite IH. split.
      * intros H. now constructor.
      * intros H. inversion H; subst; [congruence | assumption].
Qed.

(** Overwriting a key leaves every position of [d.keys()] as it is. *)
Lemma keys_set_present k v d :
  Dict.contains k d = true -> Dict.keys (Dict.set k v d) = Dict.keys d.
Proof.
  unfold Dict.contains, Dict.keys.
  induction d as [|[k' v'] d IH]; simpl; [discriminate|].
  destruct (key_eqb k k') eqn:E; simpl; [reflexivity|].
  intros H. now rewrite IH.
Qed.

(** A new key goes to the end of [d.keys()]. *)
Lemma keys_set_absent k v d :
  Dict.contains k d = false -> Dict.keys (Dict.set k v d) = Dict.keys d ++ [k].
Proof.
  unfold Dict.contains, Dict.keys.
  induction d as [|[k' v'] d IH]; simpl; [reflexivity|].
  destruct (key_eqb k k') eqn:E; simpl; [discriminate|].
  intros H. now rewrite IH.
Qed.

(** The keys after [d[k] = v] do not depend on [v]. *)
Lemma keys_set_indep k v1 v2 d :
  Dict.keys (Dict.set k v1 d) = Dict.keys (Dict.set k v2 d).
Proof.
  unfold Dict.keys.
  induction d as [|[k' v'] d IH]; simpl; [reflexivity|].
  destruct (key_eqb k k'); simpl; [reflexivity | now rewrite IH].
Qed.

Lemma keys_set_Forall (P : key -> Prop) k v d :
  P k -> Forall P (Dict.keys d) -> Forall P (Dict.keys (Dict.set k v d)).
Proof.
  intros Hk. unfold Dict.keys.
  induction d as [|[k' v'] d IH]; simpl; intros H.
  - now constructor.
  - inversion H; subst. destruct (key_eqb k k'); simpl; constructor; auto.
Qed.

Lemma keys_del_Forall (P : key -> Prop) k d :
  Forall P (Dict.keys d) -> Forall P (Dict.keys (Dict.del k d)).
Proof.
  unfold Dict.keys.
  induction d as [|[k' v'] d IH]; simpl; intros H; [constructor|].
  inversion H; subst. destruct (key_eqb k k'); simpl; auto.
Qed.

(** The finite-map view: lookup, and assignment as insertion. *)
Lemma to_map_lookup k d : Dict.to_map d !! k = Dict.get k d.
Proof.
  unfold Dict.to_map.
  induction d as [|[k' v'] d IH]; simpl; [apply lookup_empty|].
  destruct (key_eqb k k') eqn:E.
  - apply key_eqb_eq in E. subst. apply lookup_insert_eq.
  - apply key_eqb_neq in E. rewrite lookup_insert_ne by congruence. exact IH.
Qed.

Lemma to_map_set k v d :
  Dict.to_map (Dict.set k v d) = <[k := v]> (Dict.to_map d).
Proof.
  apply map_eq. intros i. rewrite to_map_lookup.
  destruct (decide (k = i)) as [->|Hne].
  - now rewrite get_set_eq, lookup_insert_eq.
  - rewrite get_set_ne, lookup_insert_ne by assumption.
    symmetry. apply to_map_lookup.
Qed.

Lemma keys_dom k d : k ∈ Dict.keys d <-> k ∈ dom (Dict.to_map d).
Proof.
  rewrite <- contains_keys, contains_true, elem_of_dom, to_map_lookup.
  reflexivity.
Qed.
End Facts.
End DictFacts.

(** ** Strings *)

Lemma split_not_nil sep s : split sep s <> [].
Proof.
  destruct s as [|c s]; simpl; [discriminate|].
  destruct (Ascii.eqb c sep); [discriminate|].
  destruct (split sep s); discriminate.
Qed.

(** A string without the separator is its own single segment. *)
Lemma split_no_sep sep s : has_char sep s = false -> split sep s = [s].
Proof.
  induction s as [|c s IH]; simpl; [reflexivity|].
  destruct (Ascii.eqb c sep); simpl; [discriminate|].
  intros H. now rewrite IH.
Qed.

(** Splitting cuts at the first separator. *)
Lemma split_app sep a rest :
  has_char sep a = false ->
  split sep (a ++ String sep rest) = a :: split sep rest.
Proof.
  induction a as [|c a IH]; simpl.
  - intros _. now rewrite Ascii.eqb_refl.
  - destruct (Ascii.eqb c sep); simpl; [discriminate|].
    intros H. now rewrite IH.
Qed.

(** The first segment never contains the separator. *)
Lemma split_hd_no_sep sep s : has_char sep (hd "" (split sep s)) = false.
Proof.
  induction s as [|c s IH]; simpl; [reflexivity|].
  destruct (Ascii.eqb c sep) eqn:E; simpl; [reflexivity|].
  destruct (split sep s) as [|p ps] eqn:S; simpl in *.
  - now rewrite E.
  - now rewrite E, IH.
Qed.

Lemma has_char_nonempty c s : has_char c s = true -> s <> "".
Proof. destruct s; simpl; [discriminate | discriminate]. Qed.

(** ** The traversal loop *)

Ltac unfold_getattr := unfold getattr.
Ltac unfold_lookup := unfold lookup.
Ltac unfold_lookup_misses := unfold lookup_misses.
Ltac unfold_resolve := unfold resolve.
Ltac unfold_int_rejects := unfold int_rejects.

Section Traversal.
Variable rt : runtime.

Local Abbreviation getattr := (getattr rt).
Local Abbreviation lookup := (lookup rt).
Local Abbreviation walk := (walk rt).
Local Abbreviation resolve := (resolve rt).
Local Abbreviation lookup_misses := (lookup_misses rt).
Local Abbreviation int_rejects := (int_rejects rt).

(** A non-negative index is in range exactly when the list has an element
    at that position. *)
Lemma seq_getitem_nonneg {A : Type} (xs : list A) i :
  (0 <= i)%Z ->
  seq_getitem xs i
  = match nth_error xs (Z.to_nat i) with
    | Some v => Ok v
    | None => Raise (Exn IndexError Msg_runtime)
    end.
Proof.
  intros Hi. unfold seq_getitem.
  assert ((i <? 0)%Z = false) as -> by (apply Z.ltb_ge; lia).
  assert ((0 <=? i)%Z = true) as -> by (apply Z.leb_le; lia).
  simpl. destruct (i <? Z.of_nat (List.length xs))%Z eqn:E; [reflexivity|].
  apply Z.ltb_ge in E.
  assert (nth_error xs (Z.to_nat i) = None) as ->; [|reflexivity].
  apply nth_error_None. lia.
Qed.

(** An index of a list of length [n] is in range from [-n] to [n - 1]. *)
Lemma seq_getitem_outcome {A : Type} (xs : list A) i :
  (exists v, seq_getitem xs i = Ok v)
  \/ ((i < - Z.of_nat (List.length xs) \/ Z.of_nat (List.length xs) <= i)%Z
      /\ seq_getitem xs i = Raise (Exn IndexError Msg_runtime)).
Proof.
  unfold seq_getitem.
  set (n := Z.of_nat (List.length xs)).
  destruct (i <? 0)%Z eqn:Hneg.
  - apply Z.ltb_lt in Hneg.
    destruct (0 <=? i + n)%Z eqn:Hlo; simpl.
    + apply Z.leb_le in Hlo.
      assert ((i + n <? n)%Z = true) as -> by (apply Z.ltb_lt; lia).
      destruct (nth_error xs (Z.to_nat (i + n))) eqn:E; [eauto|].
      apply nth_error_None in E. lia.
    + apply Z.leb_gt in Hlo. right. split; [lia | reflexivity].
  - apply Z.ltb_ge in Hneg.
    assert ((0 <=? i)%Z = true) as -> by (apply Z.leb_le; lia). simpl.
    destruct (i <? n)%Z eqn:Hhi.
    + apply Z.ltb_lt in Hhi.
      destruct (nth_error xs (Z.to_nat i)) eqn:E; [eauto|].
      apply nth_error_None in E. lia.
    + apply Z.ltb_ge in Hhi. right. split; [lia | reflexivity].
Qed.

Lemma seq_getitem_out_of_range {A : Type} (xs : list A) i :
  (i < - Z.of_nat (List.length xs) \/ Z.of_nat (List.length xs) <= i)%Z ->
  seq_getitem xs i = Raise (Exn IndexError Msg_runtime).
Proof.
  intros Hout. unfold seq_getitem.
  set (n := Z.of_nat (List.length xs)) in *.
  destruct (i <? 0)%Z eqn:Hneg.
  - apply Z.ltb_lt in Hneg.
    assert ((0 <=? i + n)%Z = false) as -> by (apply Z.leb_gt; lia).
    reflexivity.
  - apply Z.ltb_ge in Hneg.
    assert ((i <? n)%Z = false) as -> by (apply Z.ltb_ge; lia).
    now rewrite andb_false_r.
Qed.

Lemma lookup_dict d step :
  lookup (VDict d) step
  = match Dict.get (KStr step) d with
    | Some v => Ok v
    | None => Raise (Exn KeyError Msg_runtime)
    end.
Proof. reflexivity. Qed.

Lemma lookup_seq_digit cur xs step i :
  cur = VList xs \/ cur = VTuple xs ->
  str_isdigit rt step = true ->
  str_int rt step = Some i ->
  lookup cur step = seq_getitem xs i.
Proof.
  intros Hcur Hd Hi. unfold_lookup.
  destruct Hcur; subst cur; simpl; now rewrite Hd, Hi.
Qed.

(** When [int] rejects the step, its [ValueError] is the outcome of the
    [try] block. *)
Lemma lookup_int_rejects cur step :
  int_rejects cur step ->
  lookup cur step = Raise (Exn ValueError Msg_runtime).
Proof.
  intros (Hseq & Hd & Hi). unfold_lookup.
  destruct cur; try discriminate; simpl; now rewrite Hd, Hi.
Qed.

Lemma lookup_attr cur step :
  isinstance_dict cur = false ->
  isinstance_list_tuple cur = false \/ str_isdigit rt step = false ->
  lookup cur step = getattr cur step.
Proof.
  intros Hd Hs. unfold_lookup. rewrite Hd.
  destruct Hs as [-> | ->]; [reflexivity|].
  now rewrite andb_false_r.
Qed.

(** A lookup that misses raises one of the three exceptions [resolve]
    catches. *)
Lemma lookup_misses_caught cur step :
  lookup_misses cur step ->
  exists c m, lookup cur step = Raise (Exn c m) /\ caught c = true.
Proof.
  unfold_lookup_misses.
  destruct cur as [| b | z | s | xs | xs | d | cls attrs]; intros H.
  1-4: rewrite lookup_attr by (auto; reflexivity);
    unfold_getattr; simpl in *; rewrite H;
    exists AttributeError, Msg_runtime; split; reflexivity.
  - destruct (str_isdigit rt step) eqn:Hd.
    + destruct H as (i & Hi & Hout).
      rewrite (lookup_seq_digit (VList xs) xs step i) by auto.
      rewrite (seq_getitem_out_of_range _ _ Hout).
      exists IndexError, Msg_runtime; split; reflexivity.
    + rewrite lookup_attr by auto. unfold_getattr. rewrite H.
      exists AttributeError, Msg_runtime; split; reflexivity.
  - destruct (str_isdigit rt step) eqn:Hd.
    + destruct H as (i & Hi & Hout).
      rewrite (lookup_seq_digit (VTuple xs) xs step i) by auto.
      rewrite (seq_getitem_out_of_range _ _ Hout).
      exists IndexError, Msg_runtime; split; reflexivity.
    + rewrite lookup_attr by auto. unfold_getattr. rewrite H.
      exists AttributeError, Msg_runtime; split; reflexivity.
  - rewrite lookup_dict, H.
    exists KeyError, Msg_runtime; split; reflexivity.
  - rewrite lookup_attr by (auto; reflexivity).
    unfold_getattr. rewrite H.
    exists AttributeError, Msg_runtime; split; reflexivity.
Qed.

(** A lookup finds a value, or misses, or is the step of a sequence that
    [int] rejects. *)
Lemma lookup_total cur step :
  (exists v, lookup cur step = Ok v)
  \/ lookup_misses cur step
  \/ int_rejects cur step.
Proof.
  unfold_lookup_misses. unfold_int_rejects.
  destruct cur as [| b | z | s | xs | xs | d | cls attrs].
  1-4: rewrite lookup_attr by (auto; reflexivity);
    unfold_getattr;
    match goal with
    | |- context [builtin_getattr rt ?c ?s] =>
        destruct (builtin_getattr rt c s); eauto
    end.
  - destruct (str_isdigit rt step) eqn:Hd.
    + destruct (str_int rt step) as [i|] eqn:Hi.
      * rewrite (lookup_seq_digit (VList xs) xs step i) by auto.
        destruct (seq_getitem_outcome xs i) as [[v Hv] | [Hout _]]; eauto.
      * right. right. repeat split; assumption.
    + rewrite lookup_attr by auto. unfold_getattr.
      destruct (builtin_getattr rt (VList xs) step); eauto.
  - destruct (str_isdigit rt step) eqn:Hd.
    + destruct (str_int rt step) as [i|] eqn:Hi.
      * rewrite (lookup_seq_digit (VTuple xs) xs step i) by auto.
        destruct (seq_getitem_outcome xs i) as [[v Hv] | [Hout _]]; eauto.
      * right. right. repeat split; assumption.
    + rewrite lookup_attr by auto. unfold_getattr.
      destruct (builtin_getattr rt (VTuple xs) step); eauto.
  - rewrite lookup_dict. destruct (Dict.get (KStr step) d); eauto.
  - rewrite lookup_attr by (auto; reflexivity). unfold_getattr.
    destruct (assoc step attrs); eauto.
Qed.

(** Steps already walked can be cut off the front of the loop. *)
Lemma walk_app key_path pre : forall v0 cur rest,
  walk key_path v0 pre = Ok cur ->
  walk key_path v0 (pre ++ rest) = walk key_path cur rest.
Proof.
  induction pre as [|s pre IH]; intros v0 cur rest; simpl.
  - intros [= ->]. reflexivity.
  - destruct (startswith s "_"); [discriminate|].
    destruct (lookup v0 s) as [v | [c m]]; [apply IH|].
    destruct (caught c); discriminate.
Qed.

(** A list of steps with a private name in it is never walked to the end. *)
Lemma walk_private_not_ok key_path steps : forall v0 v,
  Exists (fun s => startswith s "_" = true) steps ->
  walk key_path v0 steps <> Ok v.
Proof.
  induction steps as [|s steps IH]; intros v0 v H; inversion H; subst; simpl.
  - match goal with Hs : startswith _ _ = true |- _ => rewrite Hs end.
    discriminate.
  - destruct (startswith s "_"); [discriminate|].
    destruct (lookup v0 s) as [v1 | [c m]]; [now apply IH|].
    destruct (caught c); discriminate.
Qed.

(** [resolve] in terms of the alias and the steps. *)
Lemma resolve_registered key_path self v0 :
  Dict.get (KStr (hd "" (split "." key_path))) (_objects self) = Some v0 ->
  resolve key_path self = (self, walk key_path v0 (tl (split "." key_path))).
Proof.
  intros H. unfold_resolve. unfold Dict.contains. now rewrite H.
Qed.

(** What [resolve] does at a step it reaches. *)
Lemma resolve_at_step key_path self v0 pre s post cur :
  Dict.get (KStr (hd "" (split "." key_path))) (_objects self) = Some v0 ->
  tl (split "." key_path) = pre ++ s :: post ->
  walk key_path v0 pre = Ok cur ->
  resolve key_path self = (self, walk key_path cur (s :: post)).
Proof.
  intros Hget Hsteps Hpre.
  rewrite (resolve_registered _ _ _ Hget), Hsteps.
  now rewrite (walk_app _ _ _ _ _ Hpre).
Qed.

(** The invariant of [_objects] is kept by every call. *)
Lemma after_keys c self :
  Forall (fun k => nonempty_str_key k = true) (Dict.keys (_objects self)) ->
  Forall (fun k => nonempty_str_key k = true)
    (Dict.keys (_objects (after rt c self))).
Proof.
  intros H. destruct c as [alias obj force | key_path | alias |]; simpl.
  - unfold register.
    destruct (negb (isinstance_str alias) || negb (truthy alias)) eqn:E;
      [exact H|].
    destruct alias; try exact H.
    destruct (Dict.contains (KStr s) (_objects self) && negb force);
      [exact H|].
    simpl. apply DictFacts.keys_set_Forall; [|exact H].
    simpl in E. exact (proj1 (negb_false_iff _) E).
  - unfold_resolve.
    destruct (negb _); [exact H|].
    destruct (Dict.get _ _); exact H.
  - unfold unregister. destruct (Dict.contains _ _); [|exact H].
    simpl. now apply DictFacts.keys_del_Forall.
  - constructor.
Qed.

Lemma run_keys cs : forall self,
  Forall (fun k => nonempty_str_key k = true) (Dict.keys (_objects self)) ->
  Forall (fun k => nonempty_str_key k = true)
    (Dict.keys (_objects (run rt cs self))).
Proof.
  induction cs as [|c cs IH]; intros self H; simpl; [exact H|].
  apply IH, after_keys, H.
Qed.

Lemma reachable_keys self :
  reachable rt self ->
  Forall (fun k => nonempty_str_key k = true) (Dict.keys (_objects self)).
Proof.
  intros (name & cs & ->). apply run_keys. constructor.
Qed.

End Traversal.

(** ** Properties of the methods *)

(** [register] on a non-empty [str] alias. *)
Lemma register_str a obj force self :
  a <> "" ->
  register (VStr a) obj force self
  = if Dict.contains (KStr a) (_objects self) && negb force
    then (self, Raise (Exn ValueError (Msg_alias_collision a)))
    else (set_objects self (Dict.set (KStr a) obj (_objects self)), Ok tt).
Proof.
  intros Ha. unfold register. simpl.
  assert (String.eqb a "" = false) as -> by now apply String.eqb_neq.
  reflexivity.
Qed.

Lemma register_empty obj force self :
  register (VStr "") obj force self
  = (self, Raise (Exn ValueError (Msg_invalid_alias (VStr "")))).
Proof. reflexivity. Qed.

Lemma register_not_str alias obj force self :
  isinstance_str alias = false ->
  register alias obj force self
  = (self, Raise (Exn ValueError (Msg_invalid_alias alias))).
Proof. intros H. unfold register. now rewrite H. Qed.

Section Claims.
Variable rt : runtime.

Local Abbreviation getattr := (getattr rt).
Local Abbreviation lookup := (lookup rt).
Local Abbreviation walk := (walk rt).
Local Abbreviation resolve := (resolve rt).
Local Abbreviation lookup_misses := (lookup_misses rt).
Local Abbreviation int_rejects := (int_rejects rt).
Local Abbreviation reachable := (reachable rt).

(** C1, as amended: for every alias [a] without a ['.'] and every value
    [v], after [register(a, v)] succeeds on a hub, [resolve(a)] on that hub
    returns exactly [v]. (A successful [register] already makes [a] a
    non-empty string.) *)
Theorem register_then_resolve self self' a v force :
  has_char "." a = false ->
  register (VStr a) v force self = (self', Ok tt) ->
  resolve a self' = (self', Ok v).
Proof.
  intros Hdot Hreg.
  destruct (String.eqb_spec a "") as [-> | Ha];
    [rewrite register_empty in Hreg; discriminate|].
  rewrite (register_str _ _ _ _ Ha) in Hreg.
  destruct (Dict.contains (KStr a) (_objects self) && negb force);
    [discriminate|].
  injection Hreg as <-.
  rewrite (resolve_registered _ _ _ v).
  - now rewrite (split_no_sep _ _ Hdot).
  - rewrite (split_no_sep _ _ Hdot). simpl. apply DictFacts.get_set_eq.
Qed.

(** C2: for every alias [a] present in the entries of a hub,
    [register(a, v2)] without [force] fails with the alias-collision
    [ValueError] and leaves the hub as it was, and with [force=True] it
    succeeds and sets [entries[a]] to [v2], every other entry and the order
    of the keys staying as they were. *)
Theorem register_existing_alias self a v2 :
  reachable self ->
  Dict.contains (KStr a) (_objects self) = true ->
  let forced := set_objects self (Dict.set (KStr a) v2 (_objects self)) in
  register (VStr a) v2 false self
  = (self, Raise (Exn ValueError (Msg_alias_collision a)))
  /\ kind_of (Exn ValueError (Msg_alias_collision a)) = AliasCollision
  /\ register (VStr a) v2 true self = (forced, Ok tt)
  /\ Dict.get (KStr a) (_objects forced) = Some v2
  /\ Dict.to_map (_objects forced)
     = <[KStr a := v2]> (Dict.to_map (_objects self))
  /\ Dict.keys (_objects forced) = Dict.keys (_objects self).
Proof.
  intros Hreach Hin forced.
  assert (a <> "") as Ha.
  { apply reachable_keys in Hreach.
    rewrite Forall_forall in Hreach.
    apply DictFacts.contains_keys in Hin.
    specialize (Hreach _ Hin). simpl in Hreach.
    intros ->. discriminate. }
  rewrite !(register_str _ _ _ _ Ha), Hin. simpl.
  repeat split.
  - apply DictFacts.get_set_eq.
  - apply DictFacts.to_map_set.
  - now apply DictFacts.keys_set_present.
Qed.

(** C3: for every value and every [force], [register] fails with the
    invalid-alias [ValueError] when the alias is the empty string or is not
    a string, and the hub is left as it was. *)
Theorem register_invalid_alias self alias v force :
  alias = VStr "" \/ isinstance_str alias = false ->
  register alias v force self
  = (self, Raise (Exn ValueError (Msg_invalid_alias alias)))
  /\ kind_of (Exn ValueError (Msg_invalid_alias alias)) = InvalidAlias.
Proof.
  intros [-> | H]; split; try reflexivity.
  now apply register_not_str.
Qed.

(** C4, as amended: when the alias of [key_path] is registered, a step
    begins with ['_'] and every step before it was looked up successfully,
    [resolve] fails with [PermissionError] at that step. Nothing is assumed
    about a key, index or attribute of that name on the current value: the
    test comes before the lookup. *)
Theorem resolve_private_step self key_path v0 pre s post cur :
  Dict.get (KStr (hd "" (split "." key_path))) (_objects self) = Some v0 ->
  tl (split "." key_path) = pre ++ s :: post ->
  walk key_path v0 pre = Ok cur ->
  startswith s "_" = true ->
  resolve key_path self = (self, Raise (Exn PermissionError (Msg_private s)))
  /\ kind_of (Exn PermissionError (Msg_private s)) = AccessDenied.
Proof.
  intros Hget Hsteps Hpre Hs.
  rewrite (resolve_at_step _ _ _ _ _ _ _ _ Hget Hsteps Hpre).
  simpl. rewrite Hs. split; reflexivity.
Qed.

(** A path with a private step anywhere in it never resolves to a value. *)
Lemma resolve_private_never_ok self key_path v :
  Exists (fun s => startswith s "_" = true) (tl (split "." key_path)) ->
  snd (resolve key_path self) <> Ok v.
Proof.
  intros H. unfold_resolve.
  destruct (negb _); [discriminate|].
  destruct (Dict.get _ _); [|discriminate].
  simpl. now apply walk_private_not_ok.
Qed.

(** C5: when the first dot-separated segment [ref_name] of [key_path] is
    not a key of the entries, [resolve] fails with the [KeyError] that
    reports [ref_name], the name of the hub, and all the keys of the
    entries, in their order. *)
Theorem resolve_unregistered_alias self key_path ref_name rest :
  has_char "." ref_name = false ->
  key_path = ref_name \/ key_path = (ref_name ++ String "." rest)%string ->
  Dict.contains (KStr ref_name) (_objects self) = false ->
  resolve key_path self
  = (self, Raise (Exn KeyError
                    (Msg_not_found ref_name (instance_name self)
                       (Dict.keys (_objects self)))))
  /\ kind_of (Exn KeyError
                (Msg_not_found ref_name (instance_name self)
                   (Dict.keys (_objects self)))) = UnresolvedAlias
  /\ (forall k, k ∈ Dict.keys (_objects self)
                <-> is_Some (Dict.to_map (_objects self) !! k)).
Proof.
  intros Hdot Hpath Hnot.
  assert (hd "" (split "." key_path) = ref_name) as Hhd.
  { destruct Hpath as [-> | ->].
    - now rewrite (split_no_sep _ _ Hdot).
    - now rewrite (split_app _ _ _ Hdot). }
  split; [|split].
  - unfold_resolve. rewrite Hhd, Hnot. reflexivity.
  - reflexivity.
  - intros k. rewrite DictFacts.keys_dom. apply elem_of_dom.
Qed.

(** Every path has a first segment: it is the path itself, or what comes
    before its first ['.']. *)
Lemma first_segment_exists key_path :
  exists ref_name rest,
    has_char "." ref_name = false
    /\ (key_path = ref_name
        \/ key_path = (ref_name ++ String "." rest)%string).
Proof.
  induction key_path as [|c s (r & rest & Hr & IH)].
  - exists "", "". split; [reflexivity | now left].
  - destruct (Ascii.eqb_spec c ".") as [-> | Hc].
    + exists "", s. split; [reflexivity | now right].
    + exists (String c r), rest. split.
      * simpl. rewrite Hr. apply Ascii.eqb_neq in Hc. now rewrite Hc.
      * destruct IH as [-> | ->]; [now left | now right].
Qed.



(** What [int] raises on a step is not caught: it leaves [resolve] as it
    is, without the path, the step or a type name. *)
Lemma resolve_int_rejects self key_path v0 pre s post cur :
  Dict.get (KStr (hd "" (split "." key_path))) (_objects self) = Some v0 ->
  tl (split "." key_path) = pre ++ s :: post ->
  walk key_path v0 pre = Ok cur ->
  startswith s "_" = false ->
  int_rejects cur s ->
  resolve key_path self = (self, Raise (Exn ValueError Msg_runtime)).
Proof.
  intros Hget Hsteps Hpre Hs Hrej.
  rewrite (resolve_at_step _ _ _ _ _ _ _ _ Hget Hsteps Hpre).
  simpl. now rewrite Hs, (lookup_int_rejects _ _ _ Hrej).
Qed.

(** C9: in every hub reached from a fresh one by calls of [register],
    [resolve], [unregister] and [clear], every key of the entries is a
    non-empty string. *)
Theorem entries_keys_nonempty_strings name cs :
  Forall (fun k => exists s, k = KStr s /\ s <> "")
    (Dict.keys (_objects (run rt cs (__init__ name)))).
Proof.
  eapply Forall_impl; [apply run_keys; constructor|].
  intros [s|z]; simpl; [|discriminate].
  intros H. exists s. split; [reflexivity|].
  intros ->. discriminate.
Qed.

(** C10: [register] accepts an alias [a] that contains a ['.'], but no
    path makes [resolve] look [a] up: the alias it uses is never [a], and
    the outcome of every [resolve] is the same whatever value is
    registered under [a]. *)
Theorem dotted_alias_unreachable a :
  has_char "." a = true ->
  (forall self v, snd (register (VStr a) v true self) = Ok tt)
  /\ (forall key_path, hd "" (split "." key_path) <> a)
  /\ (forall self v1 v2 key_path,
        snd (resolve key_path (fst (register (VStr a) v1 true self)))
        = snd (resolve key_path (fst (register (VStr a) v2 true self)))).
Proof.
  intros Hdot.
  assert (a <> "") as Ha by (eapply has_char_nonempty; eassumption).
  assert (forall key_path, hd "" (split "." key_path) <> a) as Hne.
  { intros key_path E. pose proof (split_hd_no_sep "." key_path) as H.
    rewrite E in H. congruence. }
  split; [|split; [exact Hne|]].
  - intros self v. rewrite (register_str _ _ _ _ Ha).
    now rewrite andb_false_r.
  - intros self v1 v2 key_path.
    rewrite !(register_str _ _ _ _ Ha), !andb_false_r. simpl.
    unfold_resolve. unfold Dict.contains. simpl.
    assert (KStr a <> KStr (hd "" (split "." key_path))) as Hk.
    { intros [= E]. now apply (Hne key_path). }
    rewrite !(DictFacts.get_set_ne _ _ _ _ Hk).
    rewrite (DictFacts.keys_set_indep (KStr a) v1 v2).
    destruct (Dict.get _ (_objects self)); reflexivity.
Qed.

End Claims.

(** ** The properties on the sample hub *)

Example resolve_nested_mapping :
  snd (resolve sample_runtime "cfg.a.b" sample_hub) = Ok (VInt 7).
Proof. reflexivity. Qed.

Example resolve_sequence_index :
  snd (resolve sample_runtime "seq.1" sample_hub) = Ok (VInt 20).
Proof. reflexivity. Qed.

Example resolve_sequence_out_of_range :
  snd (resolve sample_runtime "seq.9" sample_hub)
  = Raise (Exn ValueError (Msg_stopped "seq.9" "9" "list")).
Proof. reflexivity. Qed.

Example resolve_attribute :
  snd (resolve sample_runtime "obj.out_channels.real" sample_hub)
  = Ok (VInt 64).
Proof. reflexivity. Qed.

(** A digit step on a mapping is a [str] key: the entry with the [int] key
    [0] is not found. *)
Example resolve_digit_step_on_mapping :
  snd (resolve sample_runtime "cfg.0" sample_hub)
  = Raise (Exn ValueError (Msg_stopped "cfg.0" "0" "dict")).
Proof. reflexivity. Qed.

Example resolve_after_unregister :
  snd (resolve sample_runtime "cfg" (fst (unregister "cfg" sample_hub)))
  = Raise (Exn KeyError (Msg_not_found "cfg" "exp" [KStr "seq"; KStr "obj"])).
Proof. reflexivity. Qed.

Example resolve_after_clear :
  snd (resolve sample_runtime "seq" (fst (clear sample_hub)))
  = Raise (Exn KeyError (Msg_not_found "seq" "exp" [])).
Proof. reflexivity. Qed.

Lemma sample_hub_reachable : reachable sample_runtime sample_hub.
Proof. exists "exp", sample_calls. reflexivity. Defined.

(** C1 at alias ["head"]. *)
Lemma register_then_resolve_witness :
  let self' :=
    set_objects sample_hub
      (Dict.set (KStr "head") (VInt 3) (_objects sample_hub)) in
  has_char "." "head" = false
  /\ register (VStr "head") (VInt 3) false sample_hub = (self', Ok tt)
  /\ resolve sample_runtime "head" self' = (self', Ok (VInt 3)).
Proof.
  intros self'. split; [reflexivity|]. split; [reflexivity|].
  apply (register_then_resolve sample_runtime sample_hub self' "head"
           (VInt 3) false); reflexivity.
Defined.

(** C1 as stated fails on a dotted alias: with [{"b": 2}] registered under
    ["a"], registering [1] under ["a.b"] succeeds and [resolve("a.b")]
    returns [2]. *)
Lemma register_then_resolve_dotted_counterexample :
  let self :=
    fst (register (VStr "a") (VDict [(KStr "b", VInt 2)]) false
           (__init__ "exp")) in
  "a.b" <> ""
  /\ snd (register (VStr "a.b") (VInt 1) false self) = Ok tt
  /\ snd (resolve sample_runtime "a.b"
            (fst (register (VStr "a.b") (VInt 1) false self)))
     = Ok (VInt 2)
  /\ snd (resolve sample_runtime "a.b"
            (fst (register (VStr "a.b") (VInt 1) false self)))
     <> Ok (VInt 1).
Proof.
  intros self. repeat split; try reflexivity; try discriminate.
Qed.

(** C2 at alias ["cfg"] of the sample hub. *)
Lemma register_existing_alias_witness :
  reachable sample_runtime sample_hub
  /\ Dict.contains (KStr "cfg") (_objects sample_hub) = true
  /\ register (VStr "cfg") VNone false sample_hub
     = (sample_hub, Raise (Exn ValueError (Msg_alias_collision "cfg"))).
Proof.
  split; [exact sample_hub_reachable|]. split; [reflexivity|].
  exact (proj1 (register_existing_alias sample_runtime sample_hub "cfg" VNone
                  sample_hub_reachable eq_refl)).
Defined.

(** C3 at the alias [123]. *)
Lemma register_invalid_alias_witness :
  isinstance_str (VInt 123) = false
  /\ register (VInt 123) VNone true sample_hub
     = (sample_hub, Raise (Exn ValueError (Msg_invalid_alias (VInt 123)))).
Proof.
  split; [reflexivity|].
  exact (proj1 (register_invalid_alias sample_hub (VInt 123) VNone true
                  (or_intror eq_refl))).
Defined.

(** C4 at ["cfg.a._b"]. *)
Lemma resolve_private_step_witness :
  startswith "_b" "_" = true
  /\ resolve sample_runtime "cfg.a._b" sample_hub
     = (sample_hub, Raise (Exn PermissionError (Msg_private "_b"))).
Proof.
  split; [reflexivity|].
  exact (proj1 (resolve_private_step sample_runtime sample_hub "cfg.a._b"
                  (VDict [(KStr "a", VDict [(KStr "b", VInt 7)]);
                          (KInt 0, VInt 5)])
                  ["a"] "_b" [] (VDict [(KStr "b", VInt 7)])
                  eq_refl eq_refl eq_refl eq_refl)).
Defined.

(** C4 as stated fails when an earlier step misses: in ["cfg.zz._x"] the
    step ["_x"] begins with ['_'], and [resolve] stops at ["zz"] with the
    [ValueError] of a failed lookup. *)
Lemma resolve_private_after_miss_counterexample :
  Dict.contains (KStr "cfg") (_objects sample_hub) = true
  /\ tl (split "." "cfg.zz._x") = ["zz"; "_x"]
  /\ startswith "_x" "_" = true
  /\ snd (resolve sample_runtime "cfg.zz._x" sample_hub)
     = Raise (Exn ValueError (Msg_stopped "cfg.zz._x" "zz" "dict"))
  /\ kind_of (Exn ValueError (Msg_stopped "cfg.zz._x" "zz" "dict"))
     <> AccessDenied.
Proof. repeat split; try reflexivity; discriminate. Qed.

(** C5 at ["missing.x"]. *)
Lemma resolve_unregistered_alias_witness :
  Dict.contains (KStr "missing") (_objects sample_hub) = false
  /\ resolve sample_runtime "missing.x" sample_hub
     = (sample_hub,
        Raise (Exn KeyError
                 (Msg_not_found "missing" "exp"
                    [KStr "cfg"; KStr "seq"; KStr "obj"]))).
Proof.
  split; [reflexivity|].
  exact (proj1 (resolve_unregistered_alias sample_runtime sample_hub
                  "missing.x" "missing" "x" eq_refl (or_intror eq_refl)
                  eq_refl)).
Defined.



(** C10 at the alias ["a.b"]. *)
Lemma dotted_alias_unreachable_witness :
  has_char "." "a.b" = true
  /\ hd "" (split "." "a.b") <> "a.b".
Proof.
  split; [reflexivity|].
  exact (proj1 (proj2 (dotted_alias_unreachable sample_runtime "a.b" eq_refl))
           "a.b").
Defined.

(** ** More on dictionaries: deletion and uniqueness of keys *)

Module DictLaws.
Section Laws.
Context {V : Type}.
Implicit Types (k : key) (v : V) (d : pydict V).

Lemma get_none_keys k d : Dict.get k d = None <-> k ∉ Dict.keys d.
Proof.
  rewrite <- DictFacts.contains_false, <- DictFacts.contains_keys.
  destruct (Dict.contains k d); split; congruence.
Qed.

Lemma get_del_ne k k' d :
  k <> k' -> Dict.get k' (Dict.del k d) = Dict.get k' d.
Proof.
  intros Hne. induction d as [|[k1 v1] d IH]; simpl; [reflexivity|].
  destruct (key_eqb k k1) eqn:E; simpl.
  - apply key_eqb_eq in E. subst k1.
    assert (key_eqb k' k = false) as -> by (apply key_eqb_neq; congruence).
    reflexivity.
  - now rewrite IH.
Qed.

(** Deleting a key that is absent changes nothing. *)
Lemma del_absent k d : Dict.get k d = None -> Dict.del k d = d.
Proof.
  induction d as [|[k1 v1] d IH]; simpl; [reflexivity|].
  destruct (key_eqb k k1); [discriminate|].
  intros H. now rewrite IH.
Qed.

(** A new key is appended. *)
Lemma set_absent k v d : Dict.get k d = None -> Dict.set k v d = d ++ [(k, v)].
Proof.
  induction d as [|[k1 v1] d IH]; simpl; [reflexivity|].
  destruct (key_eqb k k1); [discriminate|].
  intros H. now rewrite IH.
Qed.

(** Deleting a key just added gives the dictionary back. *)
Lemma del_set_absent k v d :
  Dict.get k d = None -> Dict.del k (Dict.set k v d) = d.
Proof.
  induction d as [|[k1 v1] d IH]; simpl.
  - intros _. now rewrite key_eqb_refl.
  - destruct (key_eqb k k1) eqn:E; [discriminate|].
    intros H. simpl. now rewrite E, IH.
Qed.

Lemma filter_ne_absent k (l : list key) :
  k ∉ l -> filter (fun k' => k' <> k) l = l.
Proof.
  induction l as [|k1 l IH]; intros H; [reflexivity|].
  apply not_elem_of_cons in H as [Hne Hl].
  rewrite filter_cons_True by congruence. now rewrite IH.
Qed.

(** With unique keys, deletion removes the key and keeps the order of the
    others. *)
Lemma keys_del_filter k d :
  NoDup (Dict.keys d) ->
  Dict.keys (Dict.del k d) = filter (fun k' => k' <> k) (Dict.keys d).
Proof.
  unfold Dict.keys.
  induction d as [|[k1 v1] d IH]; simpl; intros Hnd; [reflexivity|].
  apply NoDup_cons in Hnd as [Hnotin Hnd].
  destruct (key_eqb k k1) eqn:E.
  - apply key_eqb_eq in E. subst k1.
    rewrite filter_cons_False by (intros H; now apply H).
    symmetry. now apply filter_ne_absent.
  - apply key_eqb_neq in E.
    rewrite filter_cons_True by congruence. simpl. now rewrite IH.
Qed.

Lemma get_del_eq k d :
  NoDup (Dict.keys d) -> Dict.get k (Dict.del k d) = None.
Proof.
  intros Hnd. apply get_none_keys. rewrite keys_del_filter by assumption.
  rewrite list_elem_of_filter. intros [H _]. now apply H.
Qed.

Lemma keys_del_NoDup k d :
  NoDup (Dict.keys d) -> NoDup (Dict.keys (Dict.del k d)).
Proof.
  intros Hnd. rewrite keys_del_filter by assumption. now apply NoDup_filter.
Qed.

Lemma keys_set_NoDup k v d :
  NoDup (Dict.keys d) -> NoDup (Dict.keys (Dict.set k v d)).
Proof.
  intros Hnd. destruct (Dict.contains k d) eqn:C.
  - now rewrite DictFacts.keys_set_present.
  - rewrite DictFacts.keys_set_absent by assumption.
    apply NoDup_app. split; [assumption|]. split; [|apply NoDup_singleton].
    intros x Hx Hk. apply list_elem_of_singleton in Hk. subst x.
    apply DictFacts.contains_keys in Hx. congruence.
Qed.

(** With unique keys, deletion is deletion in the finite map. *)
Lemma to_map_del k d :
  NoDup (Dict.keys d) -> Dict.to_map (Dict.del k d) = delete k (Dict.to_map d).
Proof.
  intros Hnd. apply map_eq. intros i. rewrite DictFacts.to_map_lookup.
  destruct (decide (k = i)) as [->|Hne].
  - now rewrite get_del_eq, lookup_delete_eq.
  - rewrite get_del_ne, lookup_delete_ne by assumption.
    symmetry. apply DictFacts.to_map_lookup.
Qed.
End Laws.
End DictLaws.

(** ** Further properties of the methods *)

Lemma split_app_all sep p q :
  split sep (p ++ String sep q) = split sep p ++ split sep q.
Proof.
  induction p as [|c p IH]; simpl.
  - now rewrite Ascii.eqb_refl.
  - destruct (Ascii.eqb c sep); simpl; [now rewrite IH|].
    rewrite IH. destruct (split sep p) as [|p0 ps] eqn:E; [|reflexivity].
    now apply split_not_nil in E.
Qed.

Lemma contains_is_Some (d : pydict value) k :
  bool_decide (is_Some (Dict.to_map d !! k)) = Dict.contains k d.
Proof.
  rewrite DictFacts.to_map_lookup. unfold Dict.contains.
  destruct (Dict.get k d).
  - apply bool_decide_eq_true. eauto.
  - apply bool_decide_eq_false. intros [? ?]. discriminate.
Qed.

(** The hub after [unregister], in both branches of its test. *)
Lemma unregister_fst a self :
  fst (unregister a self)
  = set_objects self (Dict.del (KStr a) (_objects self)).
Proof.
  unfold unregister. destruct (Dict.contains _ _) eqn:C; [reflexivity|].
  apply DictFacts.contains_false in C. rewrite (DictLaws.del_absent _ _ C).
  now destruct self.
Qed.

Lemma unregister_snd a self : snd (unregister a self) = Ok tt.
Proof. unfold unregister. now destruct (Dict.contains _ _). Qed.

Section MoreProperties.
Variable rt : runtime.

Local Abbreviation getattr := (getattr rt).
Local Abbreviation lookup := (lookup rt).
Local Abbreviation walk := (walk rt).
Local Abbreviation resolve := (resolve rt).
Local Abbreviation reachable := (reachable rt).
Local Abbreviation after := (after rt).
Local Abbreviation run := (run rt).

Lemma resolve_fst key_path self : fst (resolve key_path self) = self.
Proof.
  unfold_resolve. destruct (negb _); [reflexivity|].
  now destruct (Dict.get _ _).
Qed.

(** Two hubs that hold the same object under the alias of a path resolve
    the path alike. *)
Lemma resolve_same_alias key_path self1 self2 v0 :
  Dict.get (KStr (hd "" (split "." key_path))) (_objects self1) = Some v0 ->
  Dict.get (KStr (hd "" (split "." key_path))) (_objects self2) = Some v0 ->
  snd (resolve key_path self1) = snd (resolve key_path self2).
Proof.
  intros H1 H2.
  now rewrite (resolve_registered _ _ _ _ H1), (resolve_registered _ _ _ _ H2).
Qed.

(** The keys of the entries stay pairwise different. *)
Lemma after_NoDup c self :
  NoDup (Dict.keys (_objects self)) ->
  NoDup (Dict.keys (_objects (after c self))).
Proof.
  intros H. destruct c as [alias obj force | key_path | alias |]; simpl.
  - destruct alias; try (rewrite register_not_str by reflexivity; exact H).
    destruct (String.eqb_spec s "") as [-> | Hs]; [exact H|].
    rewrite (register_str _ _ _ _ Hs).
    destruct (Dict.contains _ _ && negb force); [exact H|].
    simpl. now apply DictLaws.keys_set_NoDup.
  - now rewrite resolve_fst.
  - rewrite unregister_fst. simpl. now apply DictLaws.keys_del_NoDup.
  - apply NoDup_nil_2.
Qed.

Lemma run_NoDup cs : forall self,
  NoDup (Dict.keys (_objects self)) ->
  NoDup (Dict.keys (_objects (run cs self))).
Proof.
  induction cs as [|c cs IH]; intros self H; simpl; [exact H|].
  apply IH, after_NoDup, H.
Qed.

Lemma reachable_NoDup self :
  reachable self -> NoDup (Dict.keys (_objects self)).
Proof. intros (name & cs & ->). apply run_NoDup. apply NoDup_nil_2. Qed.

(** X1: on a hub reached by calls of the methods, after [unregister(a)]
    every path whose alias is [a] raises the not-found [KeyError]; the
    aliases it lists are the former ones without [a], in the same order. *)
Theorem unregister_then_resolve self a key_path :
  reachable self ->
  hd "" (split "." key_path) = a ->
  let self' := fst (unregister a self) in
  Dict.keys (_objects self')
  = filter (fun k => k <> KStr a) (Dict.keys (_objects self))
  /\ resolve key_path self'
     = (self', Raise (Exn KeyError
                        (Msg_not_found a (instance_name self)
                           (Dict.keys (_objects self'))))).
Proof.
  intros Hreach Hhd self'. apply reachable_NoDup in Hreach.
  subst self'. rewrite unregister_fst. simpl. split.
  - now apply DictLaws.keys_del_filter.
  - unfold_resolve. rewrite Hhd. unfold Dict.contains. simpl.
    now rewrite (DictLaws.get_del_eq _ _ Hreach).
Qed.

(** X2: on a reachable hub a second [unregister(a)] changes nothing and
    does not raise. *)
Theorem unregister_idempotent self a :
  reachable self ->
  unregister a (fst (unregister a self)) = (fst (unregister a self), Ok tt).
Proof.
  intros Hreach. apply reachable_NoDup in Hreach.
  rewrite unregister_fst. unfold unregister at 1. unfold Dict.contains. simpl.
  now rewrite (DictLaws.get_del_eq _ _ Hreach).
Qed.

(** X3: [unregister(a)] does not change what a path through another
    registered alias resolves to. *)
Theorem unregister_other_alias self a key_path :
  hd "" (split "." key_path) <> a ->
  Dict.contains (KStr (hd "" (split "." key_path))) (_objects self) = true ->
  snd (resolve key_path (fst (unregister a self)))
  = snd (resolve key_path self).
Proof.
  intros Hne Hin. apply DictFacts.contains_true in Hin as [v0 Hget].
  apply (resolve_same_alias _ _ _ v0); [|exact Hget].
  rewrite unregister_fst. simpl.
  rewrite DictLaws.get_del_ne; [exact Hget | congruence].
Qed.

(** X4: a successful [register(a, v)] does not change what a path through
    another registered alias resolves to. *)
Theorem register_other_alias self self' a v force key_path :
  register (VStr a) v force self = (self', Ok tt) ->
  hd "" (split "." key_path) <> a ->
  Dict.contains (KStr (hd "" (split "." key_path))) (_objects self) = true ->
  snd (resolve key_path self') = snd (resolve key_path self).
Proof.
  intros Hreg Hne Hin. apply DictFacts.contains_true in Hin as [v0 Hget].
  apply (resolve_same_alias _ _ _ v0); [|exact Hget].
  destruct (String.eqb_spec a "") as [-> | Ha];
    [rewrite register_empty in Hreg; discriminate|].
  rewrite (register_str _ _ _ _ Ha) in Hreg.
  destruct (Dict.contains (KStr a) (_objects self) && negb force);
    [discriminate|].
  injection Hreg as <-. simpl.
  rewrite DictFacts.get_set_ne; [exact Hget | congruence].
Qed.

(** X5: registering a new alias and unregistering it again gives back the
    hub, entries and order included. *)
Theorem register_unregister_roundtrip self self' a v force :
  Dict.contains (KStr a) (_objects self) = false ->
  register (VStr a) v force self = (self', Ok tt) ->
  unregister a self' = (self, Ok tt).
Proof.
  intros Hnot Hreg.
  destruct (String.eqb_spec a "") as [-> | Ha];
    [rewrite register_empty in Hreg; discriminate|].
  rewrite (register_str _ _ _ _ Ha), Hnot in Hreg. simpl in Hreg.
  injection Hreg as <-.
  unfold unregister, Dict.contains. simpl.
  rewrite DictFacts.get_set_eq.
  apply DictFacts.contains_false in Hnot.
  rewrite (DictLaws.del_set_absent _ _ _ Hnot). now destruct self.
Qed.

Lemma run_register_calls avs : forall self,
  NoDup (map fst avs) ->
  Forall (fun av => fst av <> "") avs ->
  (forall av, av ∈ avs -> Dict.get (KStr (fst av)) (_objects self) = None) ->
  _objects (run (register_calls avs) self)
  = _objects self ++ map (fun av => (KStr (fst av), snd av)) avs.
Proof.
  induction avs as [|[a v] avs IH]; intros self Hnd Hne Hfresh; simpl.
  - now rewrite app_nil_r.
  - apply NoDup_cons in Hnd as [Ha Hnd].
    apply Forall_cons in Hne as [Hane Hne]. simpl in Hane.
    assert (Dict.get (KStr a) (_objects self) = None) as Hget
      by (apply (Hfresh (a, v)); constructor).
    rewrite (register_str _ _ _ _ Hane).
    rewrite (proj2 (DictFacts.contains_false _ _) Hget). simpl.
    rewrite IH; [| assumption | assumption |].
    + simpl. rewrite (DictLaws.set_absent _ _ _ Hget).
      now rewrite <- app_assoc.
    + intros av Hav. simpl. rewrite DictFacts.get_set_ne.
      * apply Hfresh. now constructor.
      * intros [= E]. apply Ha. rewrite E.
        apply list_elem_of_fmap. now exists av.
Qed.

(** X6: registering pairwise different non-empty aliases on a fresh hub,
    without [force], yields exactly these entries in the order of the
    calls. *)
Theorem registration_order name avs :
  NoDup (map fst avs) ->
  Forall (fun av => fst av <> "") avs ->
  _objects (run (register_calls avs) (__init__ name))
  = map (fun av => (KStr (fst av), snd av)) avs.
Proof.
  intros Hnd Hne. now rewrite run_register_calls.
Qed.

(** X7: a [register] without [force] that succeeds leaves every entry that
    was there with its value. *)
Theorem register_without_force_keeps_entries self self' alias v k x :
  register alias v false self = (self', Ok tt) ->
  Dict.get k (_objects self) = Some x ->
  Dict.get k (_objects self') = Some x.
Proof.
  intros Hreg Hget.
  destruct alias; try (rewrite register_not_str in Hreg by reflexivity;
                       discriminate).
  destruct (String.eqb_spec s "") as [-> | Hs];
    [rewrite register_empty in Hreg; discriminate|].
  rewrite (register_str _ _ _ _ Hs), andb_true_r in Hreg.
  destruct (Dict.contains (KStr s) (_objects self)) eqn:C; [discriminate|].
  injection Hreg as <-. simpl.
  rewrite DictFacts.get_set_ne; [exact Hget|].
  intros <-. apply DictFacts.contains_false in C. congruence.
Qed.

(** X8: [register] succeeds exactly when the alias is a non-empty string
    that is new or forced; otherwise it raises the invalid-alias or the
    collision [ValueError] and the hub is the one it was given. *)
Theorem register_outcomes self alias v force :
  (snd (register alias v force self) = Ok tt
   <-> exists a, alias = VStr a /\ a <> ""
                 /\ (Dict.contains (KStr a) (_objects self) = false
                     \/ force = true))
  /\ (forall e, snd (register alias v force self) = Raise e ->
        fst (register alias v force self) = self
        /\ (kind_of e = InvalidAlias \/ kind_of e = AliasCollision)).
Proof.
  destruct (isinstance_str alias) eqn:Hstr.
  - destruct alias; try discriminate.
    destruct (String.eqb_spec s "") as [-> | Hs].
    + rewrite register_empty. simpl. split.
      * split; [discriminate|]. intros (a & [= <-] & Ha & _). congruence.
      * intros e [= <-]. auto.
    + rewrite (register_str _ _ _ _ Hs).
      destruct (Dict.contains (KStr s) (_objects self)) eqn:C;
        destruct force; simpl; split;
        try (intros e He; try discriminate; injection He as <-; auto);
        (split; [intros H; try discriminate; exists s; auto
                | intros (a & [= <-] & _ & [H | H]); congruence]).
  - rewrite (register_not_str _ _ _ _ Hstr). simpl. split.
    + split; [discriminate|]. intros (a & -> & _). discriminate.
    + intros e [= <-]. auto.
Qed.

Lemma walk_outcomes key_path steps : forall v0,
  match walk key_path v0 steps with
  | Ok _ => Forall (fun s => startswith s "_" = false) steps
  | Raise e =>
      (exists s, s ∈ steps /\ startswith s "_" = true
                 /\ e = Exn PermissionError (Msg_private s))
      \/ (exists s t, s ∈ steps /\ startswith s "_" = false
                      /\ e = Exn ValueError (Msg_stopped key_path s t))
      \/ (exists s, s ∈ steps /\ startswith s "_" = false
                    /\ str_isdigit rt s = true /\ str_int rt s = None
                    /\ e = Exn ValueError Msg_runtime)
  end.
Proof.
  induction steps as [|s steps IH]; intros v0; simpl; [constructor|].
  destruct (startswith s "_") eqn:Hs.
  - left. exists s. repeat split; [constructor | assumption].
  - destruct (lookup_total rt v0 s) as [[v Hv] | [Hmiss | Hrej]].
    + rewrite Hv. specialize (IH v).
      destruct (walk key_path v steps) as [w | e].
      * now constructor.
      * destruct IH as [(s1 & Hin & Hp & ->)
                       | [(s1 & t & Hin & Hp & ->)
                         | (s1 & Hin & Hp & Hd & Hi & ->)]].
        -- left. exists s1. repeat split; [now constructor | assumption].
        -- right. left. exists s1, t.
           repeat split; [now constructor | assumption].
        -- right. right. exists s1.
           repeat split; [now constructor | assumption..].
    + destruct (lookup_misses_caught _ _ _ Hmiss) as (c & m & -> & ->).
      right. left. exists s, (type_name v0).
      repeat split; [constructor | assumption].
    + rewrite (lookup_int_rejects _ _ _ Hrej). simpl.
      destruct Hrej as (_ & Hd & Hi).
      right. right. exists s. repeat split; [constructor | assumption..].
Qed.


Lemma walk_snoc_ok key_path key_path' pre : forall v0 s w,
  walk key_path v0 (pre ++ [s]) = Ok w
  <-> exists v, walk key_path' v0 pre = Ok v
                /\ startswith s "_" = false /\ lookup v s = Ok w.
Proof.
  induction pre as [|s1 pre IH]; intros v0 s w; simpl.
  - destruct (startswith s "_").
    + split; [discriminate | intros (v & _ & ? & _); discriminate].
    + destruct (lookup v0 s) as [v1 | [c m]] eqn:L.
      * split; [intros [= <-]; exists v0; auto|].
        intros (v & [= <-] & _ & H). congruence.
      * split.
        -- destruct (caught c); discriminate.
        -- intros (v & [= <-] & _ & H). congruence.
  - destruct (startswith s1 "_").
    + split; [discriminate | intros (v & ? & _); discriminate].
    + destruct (lookup v0 s1) as [v1 | [c m]]; [apply IH|].
      split.
      * destruct (caught c); discriminate.
      * intros (v & H & _). destruct (caught c); discriminate.
Qed.

(** X10: a path extended by one step resolves to [w] exactly when the path
    resolves to some value, the step does not begin with ['_'], and its
    lookup on that value gives [w]. *)
Theorem resolve_extend_path self p s w :
  has_char "." s = false ->
  snd (resolve (p ++ String "." s) self) = Ok w
  <-> exists v, snd (resolve p self) = Ok v
                /\ startswith s "_" = false /\ lookup v s = Ok w.
Proof.
  intros Hs. unfold_resolve.
  rewrite split_app_all, (split_no_sep _ _ Hs).
  destruct (split "." p) as [|a steps] eqn:E; [now apply split_not_nil in E|].
  simpl. destruct (Dict.contains (KStr a) (_objects self)); simpl.
  - destruct (Dict.get (KStr a) (_objects self)) as [v0|]; simpl.
    + apply walk_snoc_ok.
    + split; [discriminate | intros (v & ? & _); discriminate].
  - split; [discriminate | intros (v & ? & _); discriminate].
Qed.

(** X11: [clear] puts the hub back to what its constructor builds: every
    path then raises the not-found [KeyError] with no alias to list, and
    every non-empty alias can be registered without [force]. *)
Theorem clear_resets self :
  clear self = (__init__ (instance_name self), Ok tt)
  /\ (forall key_path,
        snd (resolve key_path (fst (clear self)))
        = Raise (Exn KeyError
                   (Msg_not_found (hd "" (split "." key_path))
                      (instance_name self) [])))
  /\ (forall a v, a <> "" ->
        snd (register (VStr a) v false (fst (clear self))) = Ok tt).
Proof.
  split; [reflexivity|]. split.
  - intros key_path. reflexivity.
  - intros a v Ha. now rewrite (register_str _ _ _ _ Ha).
Qed.

(** X12: on a reachable hub the empty path, and every path that begins with
    ['.'], raises the not-found [KeyError] for the alias [''], which is
    never registered. *)
Theorem resolve_empty_alias self key_path :
  reachable self ->
  key_path = "" \/ (exists rest, key_path = String "." rest) ->
  resolve key_path self
  = (self, Raise (Exn KeyError
                    (Msg_not_found "" (instance_name self)
                       (Dict.keys (_objects self))))).
Proof.
  intros Hreach Hpath.
  assert (Dict.contains (KStr "") (_objects self) = false) as Hnot.
  { destruct (Dict.contains (KStr "") (_objects self)) eqn:C; [|reflexivity].
    apply reachable_keys in Hreach. rewrite Forall_forall in Hreach.
    apply DictFacts.contains_keys in C. specialize (Hreach _ C).
    discriminate. }
  assert (hd "" (split "." key_path) = "") as Hhd
    by (destruct Hpath as [-> | [rest ->]]; reflexivity).
  unfold_resolve. now rewrite Hhd, Hnot.
Qed.

Lemma after_refines_map c self :
  NoDup (Dict.keys (_objects self)) ->
  Dict.to_map (_objects (after c self))
  = map_after c (Dict.to_map (_objects self)).
Proof.
  intros Hnd. destruct c as [alias obj force | key_path | alias |]; simpl.
  - destruct alias; try (now rewrite register_not_str by reflexivity).
    destruct (String.eqb_spec s "") as [-> | Hs]; [reflexivity|].
    rewrite (register_str _ _ _ _ Hs), contains_is_Some.
    destruct (Dict.contains _ _ && negb force); [reflexivity|].
    simpl. apply DictFacts.to_map_set.
  - now rewrite resolve_fst.
  - rewrite unregister_fst. simpl. now apply DictLaws.to_map_del.
  - reflexivity.
Qed.

Lemma run_refines_map_from cs : forall self,
  NoDup (Dict.keys (_objects self)) ->
  Dict.to_map (_objects (run cs self))
  = fold_left (fun m c => map_after c m) cs (Dict.to_map (_objects self)).
Proof.
  induction cs as [|c cs IH]; intros self Hnd; simpl; [reflexivity|].
  rewrite IH by now apply after_NoDup.
  now rewrite after_refines_map.
Qed.

(** X13: read as a finite map, the entries after any sequence of calls on a
    fresh hub are what the calls do to the empty map: a valid [register]
    that is new or forced inserts, [unregister] deletes, [clear] empties,
    and everything else ([resolve], a rejected [register]) leaves the map
    as it is. *)
Theorem run_refines_map name cs :
  Dict.to_map (_objects (run cs (__init__ name)))
  = fold_left (fun m c => map_after c m) cs ∅.
Proof.
  rewrite run_refines_map_from by apply NoDup_nil_2. reflexivity.
Qed.

End MoreProperties.

(** ** The further properties on the sample hub *)

(** X1 at the alias ["seq"]. *)
Lemma unregister_then_resolve_witness :
  reachable sample_runtime sample_hub
  /\ hd "" (split "." "seq.1") = "seq"
  /\ resolve sample_runtime "seq.1" (fst (unregister "seq" sample_hub))
     = (fst (unregister "seq" sample_hub),
        Raise (Exn KeyError
                 (Msg_not_found "seq" "exp" [KStr "cfg"; KStr "obj"]))).
Proof.
  split; [exact sample_hub_reachable|]. split; [reflexivity|].
  exact (proj2 (unregister_then_resolve sample_runtime sample_hub "seq"
                  "seq.1" sample_hub_reachable eq_refl)).
Defined.

(** X2 at the alias ["seq"]. *)
Lemma unregister_idempotent_witness :
  reachable sample_runtime sample_hub
  /\ unregister "seq" (fst (unregister "seq" sample_hub))
     = (fst (unregister "seq" sample_hub), Ok tt).
Proof.
  split; [exact sample_hub_reachable|].
  exact (unregister_idempotent sample_runtime sample_hub "seq"
           sample_hub_reachable).
Defined.

(** X3: ["cfg.a.b"] after [unregister("seq")]. *)
Lemma unregister_other_alias_witness :
  hd "" (split "." "cfg.a.b") <> "seq"
  /\ Dict.contains (KStr "cfg") (_objects sample_hub) = true
  /\ snd (resolve sample_runtime "cfg.a.b" (fst (unregister "seq" sample_hub)))
     = Ok (VInt 7).
Proof.
  assert (hd "" (split "." "cfg.a.b") <> "seq") as Hne by discriminate.
  split; [exact Hne|]. split; [reflexivity|].
  exact (unregister_other_alias sample_runtime sample_hub "seq" "cfg.a.b"
           Hne eq_refl).
Defined.

(** X4: ["seq.1"] after [register("head", 3)]. *)
Lemma register_other_alias_witness :
  let self' :=
    set_objects sample_hub
      (Dict.set (KStr "head") (VInt 3) (_objects sample_hub)) in
  register (VStr "head") (VInt 3) false sample_hub = (self', Ok tt)
  /\ hd "" (split "." "seq.1") <> "head"
  /\ snd (resolve sample_runtime "seq.1" self') = Ok (VInt 20).
Proof.
  intros self'.
  assert (hd "" (split "." "seq.1") <> "head") as Hne by discriminate.
  split; [reflexivity|]. split; [exact Hne|].
  exact (register_other_alias sample_runtime sample_hub self' "head" (VInt 3)
           false "seq.1" eq_refl Hne eq_refl).
Defined.

(** X5 at the alias ["head"]. *)
Lemma register_unregister_roundtrip_witness :
  Dict.contains (KStr "head") (_objects sample_hub) = false
  /\ unregister "head" (fst (register (VStr "head") (VInt 3) false sample_hub))
     = (sample_hub, Ok tt).
Proof.
  split; [reflexivity|].
  exact (register_unregister_roundtrip sample_hub _ "head" (VInt 3) false
           eq_refl eq_refl).
Defined.

(** X6 for two aliases. *)
Lemma registration_order_witness :
  NoDup (map fst [("neck", VInt 1); ("head", VInt 2)])
  /\ _objects (run sample_runtime
                 (register_calls [("neck", VInt 1); ("head", VInt 2)])
                 (__init__ "exp"))
     = [(KStr "neck", VInt 1); (KStr "head", VInt 2)].
Proof.
  assert (NoDup (map fst [("neck", VInt 1); ("head", VInt 2)])) as Hnd.
  { apply NoDup_cons. split.
    - intros H. apply list_elem_of_singleton in H. discriminate.
    - apply NoDup_singleton. }
  split; [exact Hnd|].
  apply (registration_order sample_runtime "exp"
           [("neck", VInt 1); ("head", VInt 2)] Hnd).
  repeat constructor; discriminate.
Defined.

(** X7: the entry of ["seq"] after [register("head", 3)]. *)
Lemma register_without_force_keeps_entries_witness :
  Dict.get (KStr "seq")
    (_objects (fst (register (VStr "head") (VInt 3) false sample_hub)))
  = Some (VList [VInt 10; VInt 20; VInt 30]).
Proof.
  exact (register_without_force_keeps_entries sample_hub _ (VStr "head")
           (VInt 3) (KStr "seq") (VList [VInt 10; VInt 20; VInt 30])
           eq_refl eq_refl).
Defined.

(** X8: a new alias, and a collision. *)
Lemma register_outcomes_witness :
  snd (register (VStr "head") VNone false sample_hub) = Ok tt
  /\ fst (register (VStr "cfg") VNone false sample_hub) = sample_hub.
Proof.
  split.
  - apply (proj1 (register_outcomes sample_hub (VStr "head") VNone false)).
    exists "head". split; [reflexivity|]. split; [discriminate|].
    left. reflexivity.
  - exact (proj1 (proj2 (register_outcomes sample_hub (VStr "cfg") VNone false)
                    (Exn ValueError (Msg_alias_collision "cfg")) eq_refl)).
Defined.

(** X10: ["cfg.a"] extended by ["b"]. *)
Lemma resolve_extend_path_witness :
  has_char "." "b" = false
  /\ snd (resolve sample_runtime "cfg.a.b" sample_hub) = Ok (VInt 7).
Proof.
  split; [reflexivity|].
  apply (proj2 (resolve_extend_path sample_runtime sample_hub "cfg.a" "b"
                  (VInt 7) eq_refl)).
  exists (VDict [(KStr "b", VInt 7)]). repeat split.
Defined.

(** X11: register after [clear]. *)
Lemma clear_resets_witness :
  "cfg" <> ""
  /\ snd (register (VStr "cfg") VNone false (fst (clear sample_hub))) = Ok tt.
Proof.
  assert ("cfg" <> "") as Hne by discriminate.
  split; [exact Hne|].
  exact (proj2 (proj2 (clear_resets sample_runtime sample_hub))
           "cfg" VNone Hne).
Defined.

(** X12 at the path [".x"]. *)
Lemma resolve_empty_alias_witness :
  reachable sample_runtime sample_hub
  /\ resolve sample_runtime ".x" sample_hub
     = (sample_hub,
        Raise (Exn KeyError
                 (Msg_not_found "" "exp" [KStr "cfg"; KStr "seq"; KStr "obj"]))).
Proof.
  split; [exact sample_hub_reachable|].
  exact (resolve_empty_alias sample_runtime sample_hub ".x"
           sample_hub_reachable (or_intror (ex_intro _ "x" eq_refl))).
Defined.

(** ** What [resolve] does to the registered objects *)

Lemma only_defaults_added_refl h : Store.only_defaults_added h h.
Proof.
  intros l. destruct (h !! l) as [[d | dv d | xs | xs | cls attrs]|];
    try reflexivity.
  exists d. split; [reflexivity | auto].
Qed.

Lemma only_defaults_added_trans h1 h2 h3 :
  Store.only_defaults_added h1 h2 ->
  Store.only_defaults_added h2 h3 ->
  Store.only_defaults_added h1 h3.
Proof.
  intros H12 H23 l. specialize (H12 l). specialize (H23 l).
  destruct (h1 !! l) as [[d | dv d | xs | xs | cls attrs]|];
    try (rewrite H12 in H23; exact H23).
  destruct H12 as (d2 & E2 & K2). rewrite E2 in H23.
  destruct H23 as (d3 & E3 & K3). exists d3. split; [exact E3 | auto].
Qed.

(** Without a [defaultdict] in it, a heap can only stay as it is. *)
Lemma only_defaults_added_plain h h' :
  (forall l dv d, h !! l <> Some (Store.ODefaultDict dv d)) ->
  Store.only_defaults_added h h' ->
  h' = h.
Proof.
  intros Hplain H. apply map_eq. intros l. specialize (H l).
  destruct (h !! l) as [[d | dv d | xs | xs | cls attrs]|] eqn:E;
    try exact H.
  now apply Hplain in E.
Qed.

Section StoreProperties.
Variable rt : runtime.
Variable builtin_attr : gmap nat Store.sobj -> Store.sval -> string
                        -> option Store.sval.

Local Abbreviation getitem := Store.getitem.
Local Abbreviation lookup := (Store.lookup rt builtin_attr).
Local Abbreviation walk := (Store.walk rt builtin_attr).
Local Abbreviation resolve := (Store.resolve rt builtin_attr).

Lemma store_getitem_effect h cur k :
  Store.only_defaults_added h (snd (getitem h cur k)).
Proof.
  unfold Store.getitem.
  destruct cur as [| b | z | s | l]; try apply only_defaults_added_refl.
  destruct (h !! l) as [[d | dv d | xs | xs | cls attrs]|] eqn:E;
    try apply only_defaults_added_refl.
  - destruct (Dict.get k d); apply only_defaults_added_refl.
  - destruct (Dict.get k d) eqn:G; [apply only_defaults_added_refl|].
    simpl. intros l'. destruct (decide (l = l')) as [<- | Hne].
    + rewrite E, lookup_insert_eq. eexists. split; [reflexivity|].
      intros k' x Hk'. rewrite DictFacts.get_set_ne; [exact Hk'|].
      intros <-. congruence.
    + rewrite lookup_insert_ne by assumption.
      apply only_defaults_added_refl.
  - destruct k; apply only_defaults_added_refl.
  - destruct k; apply only_defaults_added_refl.
Qed.

Lemma store_lookup_effect h cur attr :
  Store.only_defaults_added h (snd (lookup h cur attr)).
Proof.
  unfold Store.lookup.
  destruct (Store.isinstance_dict h cur); [apply store_getitem_effect|].
  destruct (Store.isinstance_list_tuple h cur && str_isdigit rt attr);
    [|apply only_defaults_added_refl].
  destruct (str_int rt attr);
    [apply store_getitem_effect | apply only_defaults_added_refl].
Qed.

Lemma store_walk_effect key_path attrs : forall cur h,
  Store.only_defaults_added h (snd (walk key_path cur attrs h)).
Proof.
  induction attrs as [|attr rest IH]; intros cur h; simpl.
  - apply only_defaults_added_refl.
  - destruct (startswith attr "_"); [apply only_defaults_added_refl|].
    pose proof (store_lookup_effect h cur attr) as Hstep.
    destruct (lookup h cur attr) as [[v | [c m]] h']; simpl in Hstep.
    + eapply only_defaults_added_trans; [exact Hstep | apply IH].
    + destruct (caught c); exact Hstep.
Qed.


End StoreProperties.




(** A digit of another script is a digit for [str.isdigit] and for [int]:
    ["٢"] is the index [2]. *)
Example resolve_arabic_indic_digit :
  snd (resolve sample_runtime "seq.٢" sample_hub) = Ok (VInt 30).
Proof. reflexivity. Qed.

(** An index counted in a step with leading zeros, and one past the end. *)
Example resolve_index_steps :
  snd (resolve sample_runtime "seq.002" sample_hub) = Ok (VInt 30)
  /\ snd (resolve sample_runtime "seq.3" sample_hub)
     = Raise (Exn ValueError (Msg_stopped "seq.3" "3" "list")).
Proof. split; reflexivity. Qed.
